(** * Schema discovery of spanner-truncate (truncate/table_schema.go)

    A shallow embedding of [fetchTableSchemas] and [fetchIndexSchemas].

    The Cloud Spanner client is modelled as much as these two functions use
    of it: a query result is a [RowIterator], a finite sequence of rows that
    ends either with [iterator.Done] or with an error (a failed query, a
    cancelled context, ...); [RowIterator.Do] runs a callback on every row
    and stops at the first error; [Row.Columns] decodes the columns of a row
    into Go variables of type [string], [spanner.NullString] and
    [[]string]. The callbacks of the two functions append to a slice that
    they capture; this is modelled by passing that slice as explicit state. *)

From stdpp Require Import base gmap strings list.
From Stdlib Require Import Sorted.

Local Open Scope string_scope.
Local Open Scope list_scope.
Local Set Warnings "-register-all".

(** ** The Spanner client *)

Module Spanner.

(** Column values of a result row. *)
Inductive value :=
| VNull
| VString (s : string)
| VInt64 (z : Z)
| VArray (vs : list value).

Definition Row := list value.

(** Errors surfaced by the client. *)
Inductive error :=
| ErrColNumMismatch (want got : nat)   (* Row.Columns: wrong number of targets *)
| ErrDecodeColumn (i : nat)            (* Row.Columns: column i does not decode *)
| ErrCanceled                          (* context cancelled / deadline exceeded *)
| ErrQuery (msg : string).             (* the query itself failed *)

(** [spanner.NullString]. *)
Record NullString := { StringVal : string; Valid : bool }.

(** A query result: rows, then [iterator.Done] or an error. *)
Inductive RowIterator :=
| IterDone
| IterErr (e : error)
| IterRow (r : Row) (rest : RowIterator).

(** [RowIterator.Do]: call [f] on each row; stop at the first error
    returned by [f] or by the iterator; [nil] at [iterator.Done]. *)
Fixpoint Do {S} (f : Row -> S -> option error * S) (it : RowIterator) (st : S)
    : option error * S :=
  match it with
  | IterDone => (None, st)
  | IterErr e => (Some e, st)
  | IterRow r rest =>
      match f r st with
      | (Some e, st') => (Some e, st')
      | (None, st') => Do f rest st'
      end
  end.

(** Decoding one column into a Go [string]: NULL does not decode. *)
Definition decodeString (v : value) : option string :=
  match v with
  | VString s => Some s
  | _ => None
  end.

(** Decoding into a [spanner.NullString]. *)
Definition decodeNullString (v : value) : option NullString :=
  match v with
  | VNull => Some {| StringVal := ""; Valid := false |}
  | VString s => Some {| StringVal := s; Valid := true |}
  | _ => None
  end.

(** Decoding into a [[]string]: a NULL array is the nil slice; a NULL
    element does not decode. *)
Definition decodeStringArray (v : value) : option (list string) :=
  match v with
  | VNull => Some []
  | VArray vs => mapM decodeString vs
  | _ => None
  end.

(** [Row.Columns]: column [i] failing gives [errDecodeColumn(i, ...)]. *)
Definition column {A} (i : nat) (d : option A) : error + A :=
  match d with
  | Some x => inr x
  | None => inl (ErrDecodeColumn i)
  end.

End Spanner.

Import Spanner.

Notation "'let?' x := m 'in' k" :=
  (match m with inl e => inl e | inr x => k end)
  (at level 200, x pattern, m at level 100, k at level 200).

(** ** The data model (table_schema.go, lines 25-55) *)

Inductive deleteActionType :=
| deleteActionUndefined
| deleteActionCascadeDelete
| deleteActionNoAction.

Record tableSchema := {
  tableName : string;
  parentTableName : string;
  parentOnDeleteAction : deleteActionType;
  referencedBy : list string
}.

Record indexSchema := {
  indexName : string;
  baseTableName : string;
  indexParentTableName : string
}.

(** ** fetchTableSchemas (lines 57-138) *)

(** [r.Columns(&tableName, &parent, &deleteAction, &referencedBy)]. *)
Definition decodeTableRow (r : Row)
    : error + (string * NullString * NullString * list string) :=
  match r with
  | [c0; c1; c2; c3] =>
      let? tableName := column 0 (decodeString c0) in
      let? parent := column 1 (decodeNullString c1) in
      let? deleteAction := column 2 (decodeNullString c2) in
      let? refs := column 3 (decodeStringArray c3) in
      inr (tableName, parent, deleteAction, refs)
  | _ => inl (ErrColNumMismatch 4 (length r))
  end.

(** Lines 111-114: a NULL parent is the empty string. *)
Definition parentNameOf (parent : NullString) : string :=
  if Valid parent then StringVal parent else "".

(** Lines 116-124. *)
Definition deleteActionOf (deleteAction : NullString) : deleteActionType :=
  if Valid deleteAction then
    if String.eqb (StringVal deleteAction) "CASCADE" then deleteActionCascadeDelete
    else if String.eqb (StringVal deleteAction) "NO ACTION" then deleteActionNoAction
    else deleteActionUndefined
  else deleteActionUndefined.

(** Lines 126-131: the descriptor built from a decoded row. *)
Definition toTableSchema (d : string * NullString * NullString * list string)
    : tableSchema :=
  let '(name, parent, deleteAction, refs) := d in
  {| tableName := name;
     parentTableName := parentNameOf parent;
     parentOnDeleteAction := deleteActionOf deleteAction;
     referencedBy := refs |}.

(** Lines 75-84: [for _, t := range ts { m[t] = true }]. *)
Definition fillSet (ts : list string) : gmap string bool :=
  fold_left (fun m t => <[t := true]> m) ts ∅.

(** Lines 99-109: whether the callback goes on to append the row. *)
Definition keepTable (truncateAll : bool) (targets excludes : gmap string bool)
    (name : string) : bool :=
  if negb truncateAll then
    if negb (Nat.eqb (size excludes) 0) then
      match excludes !! name with Some _ => false | None => true end
    else
      match targets !! name with Some _ => true | None => false end
  else true.

(** The row callback of lines 88-133, with [tables] as explicit state. *)
Definition tableCallback (truncateAll : bool) (targets excludes : gmap string bool)
    (r : Row) (tables : list tableSchema) : option error * list tableSchema :=
  match decodeTableRow r with
  | inl err => (Some err, tables)
  | inr d =>
      let '(name, _, _, _) := d in
      if keepTable truncateAll targets excludes name
      then (None, app tables [toTableSchema d])
      else (None, tables)
  end.

(** [fetchTableSchemas]: [iter] is the result of the catalog query; the Go
    pair [([]*tableSchema, error)] is a pair with the nil slice as [[]]. *)
Definition fetchTableSchemas (iter : RowIterator)
    (targetTables excludeTables : list string) : list tableSchema * option error :=
  let '(truncateAll, targets, excludes) :=
    if orb (Nat.ltb 0 (length targetTables)) (Nat.ltb 0 (length excludeTables))
    then (false, fillSet targetTables, fillSet excludeTables)
    else (true, ∅, ∅) in
  match Do (tableCallback truncateAll targets excludes) iter [] with
  | (Some err, _) => ([], Some err)
  | (None, tables) => (tables, None)
  end.

(** ** fetchIndexSchemas (lines 140-174) *)

(** [r.Columns(&indexName, &baseTableName, &parent)]. *)
Definition decodeIndexRow (r : Row) : error + (string * string * NullString) :=
  match r with
  | [c0; c1; c2] =>
      let? indexName := column 0 (decodeString c0) in
      let? baseTableName := column 1 (decodeString c1) in
      let? parent := column 2 (decodeNullString c2) in
      inr (indexName, baseTableName, parent)
  | _ => inl (ErrColNumMismatch 3 (length r))
  end.

(** Lines 158-167. *)
Definition toIndexSchema (d : string * string * NullString) : indexSchema :=
  let '(name, base, parent) := d in
  {| indexName := name;
     baseTableName := base;
     indexParentTableName := parentNameOf parent |}.

Definition indexCallback (r : Row) (indexes : list indexSchema)
    : option error * list indexSchema :=
  match decodeIndexRow r with
  | inl err => (Some err, indexes)
  | inr d => (None, app indexes [toIndexSchema d])
  end.

Definition fetchIndexSchemas (iter : RowIterator) : list indexSchema * option error :=
  match Do indexCallback iter [] with
  | (Some err, _) => ([], Some err)
  | (None, indexes) => (indexes, None)
  end.

(** ** Catalog rows *)

(** A well-formed row of the table query: table name, nullable parent
    name, nullable ON_DELETE_ACTION and the referencing tables. *)
Record tableRow := {
  trName : string;
  trParent : option string;
  trAction : option string;
  trRefs : list string
}.

Definition nullableValue (o : option string) : value :=
  match o with Some s => VString s | None => VNull end.

Definition encodeTableRow (tr : tableRow) : Row :=
  [VString (trName tr); nullableValue (trParent tr); nullableValue (trAction tr);
   VArray (map VString (trRefs tr))].

Definition nullStringOf (o : option string) : NullString :=
  match o with
  | Some s => {| StringVal := s; Valid := true |}
  | None => {| StringVal := ""; Valid := false |}
  end.

(** The descriptor that [fetchTableSchemas] builds for a well-formed row. *)
Definition descriptorOf (tr : tableRow) : tableSchema :=
  toTableSchema (trName tr, nullStringOf (trParent tr), nullStringOf (trAction tr), trRefs tr).

(** A well-formed row of the index query. *)
Record indexRow := {
  irName : string;
  irBase : string;
  irParent : option string
}.

Definition encodeIndexRow (ir : indexRow) : Row :=
  [VString (irName ir); VString (irBase ir); nullableValue (irParent ir)].

(** A query result made of the given rows followed by [tail]. *)
Fixpoint rowsThen (rows : list Row) (tail : RowIterator) : RowIterator :=
  match rows with
  | [] => tail
  | r :: rs => IterRow r (rowsThen rs tail)
  end.

(** The rows of a query result, up to its end. *)
Fixpoint iterRows (it : RowIterator) : list Row :=
  match it with
  | IterDone | IterErr _ => []
  | IterRow r rest => r :: iterRows rest
  end.

(** The first error met while running the table callback over [it]:
    the decode error of a row or the error ending the iterator. *)
Fixpoint firstTableError (it : RowIterator) : option error :=
  match it with
  | IterDone => None
  | IterErr e => Some e
  | IterRow r rest =>
      match decodeTableRow r with
      | inl e => Some e
      | inr _ => firstTableError rest
      end
  end.

(** The decoded rows before the first error. *)
Fixpoint decodedTableRows (it : RowIterator)
    : list (string * NullString * NullString * list string) :=
  match it with
  | IterDone | IterErr _ => []
  | IterRow r rest =>
      match decodeTableRow r with
      | inl _ => []
      | inr d => d :: decodedTableRows rest
      end
  end.

Fixpoint firstIndexError (it : RowIterator) : option error :=
  match it with
  | IterDone => None
  | IterErr e => Some e
  | IterRow r rest =>
      match decodeIndexRow r with
      | inl e => Some e
      | inr _ => firstIndexError rest
      end
  end.

Fixpoint decodedIndexRows (it : RowIterator) : list (string * string * NullString) :=
  match it with
  | IterDone | IterErr _ => []
  | IterRow r rest =>
      match decodeIndexRow r with
      | inl _ => []
      | inr d => d :: decodedIndexRows rest
      end
  end.

(** ** The selection policy as the spec words it (section 4.1) *)

Definition selectedBySpec (include exclude : list string) (name : string) : bool :=
  match include, exclude with
  | [], [] => true
  | _, _ :: _ => negb (bool_decide (name ∈ exclude))
  | _ :: _, [] => bool_decide (name ∈ include)
  end.

(** The settings computed by lines 74-85 of [fetchTableSchemas]. *)
Definition selectionSettings (targetTables excludeTables : list string)
    : bool * gmap string bool * gmap string bool :=
  if orb (Nat.ltb 0 (length targetTables)) (Nat.ltb 0 (length excludeTables))
  then (false, fillSet targetTables, fillSet excludeTables)
  else (true, ∅, ∅).

Definition decodedName (d : string * NullString * NullString * list string) : string :=
  let '(name, _, _, _) := d in name.

(** Go's [<=] on strings. *)
Definition nameLe (a b : string) : Prop := String.leb a b = true.

(** ** Properties of the embedding *)

(** *** Running the callbacks over a query result *)

Lemma Do_tableCallback ta tg ex it (st : list tableSchema) :
  Do (tableCallback ta tg ex) it st =
  (firstTableError it,
   st ++ map toTableSchema
     (List.filter (fun d => keepTable ta tg ex (decodedName d)) (decodedTableRows it))).
Proof.
  revert st. induction it as [| e | r rest IH]; intros st; simpl.
  - by rewrite app_nil_r.
  - by rewrite app_nil_r.
  - unfold tableCallback. destruct (decodeTableRow r) as [e | [[[n p] a] refs]]; simpl.
    + by rewrite app_nil_r.
    + destruct (keepTable ta tg ex n); rewrite IH; simpl; [| done].
      by rewrite <- app_assoc.
Qed.

Lemma fetchTableSchemas_eq it targetTables excludeTables :
  fetchTableSchemas it targetTables excludeTables =
  match firstTableError it with
  | Some e => ([], Some e)
  | None =>
      (map toTableSchema
         (List.filter
            (fun d => let '(ta, tg, ex) := selectionSettings targetTables excludeTables in
                      keepTable ta tg ex (decodedName d))
            (decodedTableRows it)), None)
  end.
Proof.
  unfold fetchTableSchemas, selectionSettings.
  destruct (_ || _); rewrite Do_tableCallback; by destruct (firstTableError it).
Qed.

Lemma Do_indexCallback it (st : list indexSchema) :
  Do indexCallback it st =
  (firstIndexError it, st ++ map toIndexSchema (decodedIndexRows it)).
Proof.
  revert st. induction it as [| e | r rest IH]; intros st; simpl.
  - by rewrite app_nil_r.
  - by rewrite app_nil_r.
  - unfold indexCallback. destruct (decodeIndexRow r) as [e | d]; simpl.
    + by rewrite app_nil_r.
    + rewrite IH. by rewrite <- app_assoc.
Qed.

Lemma fetchIndexSchemas_eq it :
  fetchIndexSchemas it =
  match firstIndexError it with
  | Some e => ([], Some e)
  | None => (map toIndexSchema (decodedIndexRows it), None)
  end.
Proof.
  unfold fetchIndexSchemas. rewrite Do_indexCallback. by destruct (firstIndexError it).
Qed.

(** *** The selection maps *)

Lemma fold_insert_lookup (ts : list string) (m : gmap string bool) n :
  fold_left (fun m t => <[t := true]> m) ts m !! n =
  if bool_decide (n ∈ ts) then Some true else m !! n.
Proof.
  revert m. induction ts as [| t ts IH]; intros m; cbn [fold_left].
  - case_bool_decide as H; [set_solver | done].
  - rewrite IH, lookup_insert.
    case_bool_decide as H1; case_bool_decide as H2; try done.
    + exfalso. apply H2. set_solver.
    + destruct (decide (t = n)) as [-> | Hne]; [done |].
      exfalso. apply elem_of_cons in H2 as [-> | ?]; auto.
    + destruct (decide (t = n)) as [-> | Hne]; [| done].
      exfalso. apply H2. set_solver.
Qed.

Lemma fillSet_lookup ts n :
  fillSet ts !! n = if bool_decide (n ∈ ts) then Some true else None.
Proof. unfold fillSet. rewrite fold_insert_lookup. by rewrite lookup_empty. Qed.

Lemma fillSet_size_nonzero t ts : Nat.eqb (size (fillSet (t :: ts))) 0 = false.
Proof.
  apply Nat.eqb_neq. intros Hs. apply map_size_empty_iff in Hs.
  pose proof (fillSet_lookup (t :: ts) t) as Hl.
  rewrite bool_decide_eq_true_2 in Hl by set_solver.
  rewrite Hs, lookup_empty in Hl. discriminate.
Qed.

Lemma fillSet_size_nil : Nat.eqb (size (fillSet [])) 0 = true.
Proof. reflexivity. Qed.

(** The code's selection agrees with the policy the spec words. *)
Lemma keepTable_selectedBySpec targetTables excludeTables name :
  (let '(ta, tg, ex) := selectionSettings targetTables excludeTables in
   keepTable ta tg ex name) = selectedBySpec targetTables excludeTables name.
Proof.
  unfold selectionSettings, keepTable, selectedBySpec.
  destruct targetTables as [| t ts], excludeTables as [| e es]; simpl.
  - done.
  - rewrite fillSet_size_nonzero; simpl. rewrite fillSet_lookup.
    by case_bool_decide.
  - rewrite fillSet_size_nil; simpl. rewrite fillSet_lookup.
    by case_bool_decide.
  - rewrite fillSet_size_nonzero; simpl. rewrite fillSet_lookup.
    by case_bool_decide.
Qed.

Lemma fetchTableSchemas_spec it targetTables excludeTables :
  fetchTableSchemas it targetTables excludeTables =
  match firstTableError it with
  | Some e => ([], Some e)
  | None =>
      (map toTableSchema
         (List.filter (fun d => selectedBySpec targetTables excludeTables (decodedName d))
            (decodedTableRows it)), None)
  end.
Proof.
  rewrite fetchTableSchemas_eq. destruct (firstTableError it); [done |].
  f_equal. f_equal. apply List.filter_ext. intros d. apply keepTable_selectedBySpec.
Qed.

(** *** Well-formed rows decode *)

Lemma mapM_decodeString (l : list string) : mapM decodeString (map VString l) = Some l.
Proof. induction l as [| s l IH]; simpl; [done |]. by rewrite IH. Qed.

Definition decodedOf (tr : tableRow) : string * NullString * NullString * list string :=
  (trName tr, nullStringOf (trParent tr), nullStringOf (trAction tr), trRefs tr).

Lemma decodeTableRow_encode tr : decodeTableRow (encodeTableRow tr) = inr (decodedOf tr).
Proof.
  destruct tr as [n p a refs]. unfold encodeTableRow, decodedOf; simpl.
  rewrite mapM_decodeString. by destruct p, a.
Qed.

Definition iterEnd (fin : option error) : RowIterator :=
  match fin with None => IterDone | Some e => IterErr e end.

Lemma firstTableError_encoded trs tail :
  firstTableError (rowsThen (map encodeTableRow trs) tail) = firstTableError tail.
Proof.
  induction trs as [| tr trs IH]; cbn [rowsThen map firstTableError]; [done |].
  by rewrite decodeTableRow_encode.
Qed.

Lemma decodedTableRows_encoded trs fin :
  decodedTableRows (rowsThen (map encodeTableRow trs) (iterEnd fin)) = map decodedOf trs.
Proof.
  induction trs as [| tr trs IH]; cbn [rowsThen map decodedTableRows].
  - by destruct fin.
  - rewrite decodeTableRow_encode. by rewrite IH.
Qed.

Lemma filter_map_comm {A B} (f : B -> bool) (g : A -> B) (l : list A) :
  List.filter f (map g l) = map g (List.filter (fun x => f (g x)) l).
Proof.
  induction l as [| x l IH]; simpl; [done |]. destruct (f (g x)); simpl; by rewrite IH.
Qed.

Lemma fetchTableSchemas_encoded trs fin targetTables excludeTables :
  fetchTableSchemas (rowsThen (map encodeTableRow trs) (iterEnd fin)) targetTables excludeTables =
  match fin with
  | Some e => ([], Some e)
  | None =>
      (map descriptorOf
         (List.filter (fun tr => selectedBySpec targetTables excludeTables (trName tr)) trs),
       None)
  end.
Proof.
  rewrite fetchTableSchemas_spec, firstTableError_encoded, decodedTableRows_encoded.
  destruct fin as [e |]; cbn [iterEnd firstTableError]; [done |].
  rewrite filter_map_comm, map_map. done.
Qed.

Lemma decodeIndexRow_encode ir :
  decodeIndexRow (encodeIndexRow ir) = inr (irName ir, irBase ir, nullStringOf (irParent ir)).
Proof. destruct ir as [n b p]. unfold encodeIndexRow; simpl. by destruct p. Qed.

Lemma firstIndexError_encoded irs tail :
  firstIndexError (rowsThen (map encodeIndexRow irs) tail) = firstIndexError tail.
Proof.
  induction irs as [| ir irs IH]; cbn [rowsThen map firstIndexError]; [done |].
  by rewrite decodeIndexRow_encode.
Qed.

Lemma decodedIndexRows_encoded irs fin :
  decodedIndexRows (rowsThen (map encodeIndexRow irs) (iterEnd fin)) =
  map (fun ir => (irName ir, irBase ir, nullStringOf (irParent ir))) irs.
Proof.
  induction irs as [| ir irs IH]; cbn [rowsThen map decodedIndexRows].
  - by destruct fin.
  - rewrite decodeIndexRow_encode. by rewrite IH.
Qed.

Lemma firstTableError_canceled_prefix rows e : firstTableError (rowsThen rows (IterErr e)) <> None.
Proof.
  induction rows as [| r rows IH]; simpl; [done |]. by destruct (decodeTableRow r).
Qed.

Lemma firstIndexError_canceled_prefix rows e : firstIndexError (rowsThen rows (IterErr e)) <> None.
Proof.
  induction rows as [| r rows IH]; simpl; [done |]. by destruct (decodeIndexRow r).
Qed.

Lemma decodedTableRows_origin it d :
  In d (decodedTableRows it) -> exists r, In r (iterRows it) /\ decodeTableRow r = inr d.
Proof.
  induction it as [| e | r rest IH]; simpl; [done | done |].
  destruct (decodeTableRow r) as [e | d'] eqn:Hr; simpl; [done |].
  intros [-> | Hin]; [by exists r; auto |].
  destruct (IH Hin) as (r' & Hr' & Hd). exists r'. auto.
Qed.

Lemma StronglySorted_map_filter {A B} (R : B -> B -> Prop) (g : A -> B) (f : A -> bool) l :
  StronglySorted R (map g l) -> StronglySorted R (map g (List.filter f l)).
Proof.
  induction l as [| x l IH]; simpl; intros Hs; [done |].
  apply StronglySorted_inv in Hs as [Hs Hall].
  destruct (f x); simpl; [| auto].
  constructor; [auto |].
  rewrite List.Forall_forall in Hall |- *. intros y Hy.
  apply in_map_iff in Hy as (z & <- & Hz). apply filter_In in Hz as [Hz _].
  apply Hall. apply in_map. done.
Qed.

(** *** Small runs *)

Definition rowA : tableRow := {| trName := "A"; trParent := None; trAction := None; trRefs := [] |}.
Definition rowB : tableRow :=
  {| trName := "B"; trParent := Some "A"; trAction := Some "CASCADE"; trRefs := ["C"] |}.
Definition rowC : tableRow := {| trName := "C"; trParent := None; trAction := None; trRefs := [] |}.

Definition schemaABC : RowIterator := rowsThen (map encodeTableRow [rowA; rowB; rowC]) IterDone.

Example run_include :
  map tableName (fst (fetchTableSchemas schemaABC ["A"; "B"] [])) = ["A"; "B"].
Proof. reflexivity. Qed.

Example run_precedence :
  map tableName (fst (fetchTableSchemas schemaABC ["A"] ["C"])) = ["A"; "B"].
Proof. reflexivity. Qed.

Example run_all :
  fetchTableSchemas schemaABC [] [] = (map descriptorOf [rowA; rowB; rowC], None).
Proof. reflexivity. Qed.

Example run_child :
  descriptorOf rowB =
  {| tableName := "B"; parentTableName := "A";
     parentOnDeleteAction := deleteActionCascadeDelete; referencedBy := ["C"] |}.
Proof. reflexivity. Qed.

Example run_midstream_error :
  fetchTableSchemas (rowsThen (map encodeTableRow [rowA; rowB]) (IterErr (ErrQuery "deadline")))
    [] [] = ([], Some (ErrQuery "deadline")).
Proof. reflexivity. Qed.

(** ** Claims *)

(** C1: table selection. Over a query result of well-formed rows, with
    both lists empty every table is kept; with a non-empty exclude list a
    table is kept iff its name is not excluded (the include list is not
    consulted); with an empty exclude list and a non-empty include list a
    table is kept iff its name is included. The result holds exactly the
    descriptors of the kept tables. *)
Theorem fetchTableSchemas_selection (trs : list tableRow) (include exclude : list string) :
  fetchTableSchemas (rowsThen (map encodeTableRow trs) IterDone) include exclude =
  (map descriptorOf (List.filter (fun tr => selectedBySpec include exclude (trName tr)) trs),
   None).
Proof. apply (fetchTableSchemas_encoded trs None). Qed.

(** C2: atomic failure. When the query or the decoding of a row fails,
    both functions return the first such error unchanged together with the
    nil slice; an error never comes with a non-empty collection. *)
Theorem fetch_error_atomic (it : RowIterator) (include exclude : list string) :
  (forall e, firstTableError it = Some e -> fetchTableSchemas it include exclude = ([], Some e)) /\
  (forall e, firstIndexError it = Some e -> fetchIndexSchemas it = ([], Some e)) /\
  (forall ts e, fetchTableSchemas it include exclude = (ts, Some e) -> ts = []) /\
  (forall is e, fetchIndexSchemas it = (is, Some e) -> is = []).
Proof.
  rewrite fetchTableSchemas_spec, fetchIndexSchemas_eq.
  split; [| split; [| split]].
  - intros e ->. done.
  - intros e ->. done.
  - intros ts e. destruct (firstTableError it); congruence.
  - intros is e. destruct (firstIndexError it); congruence.
Qed.

Lemma fetch_error_atomic_witness :
  fetchTableSchemas (rowsThen (map encodeTableRow [rowA]) (IterErr (ErrQuery "unavailable")))
    [] [] = ([], Some (ErrQuery "unavailable")) /\
  fetchIndexSchemas (IterRow [VString "Idx"; VNull; VNull] IterDone) =
    ([], Some (ErrDecodeColumn 1)).
Proof.
  destruct (fetch_error_atomic
              (rowsThen (map encodeTableRow [rowA]) (IterErr (ErrQuery "unavailable"))) [] [])
    as (H1 & _).
  destruct (fetch_error_atomic (IterRow [VString "Idx"; VNull; VNull] IterDone) [] [])
    as (_ & H2 & _).
  split; [apply H1 | apply H2]; reflexivity.
Defined.

(** C3: delete-action decoding. For a row that decodes, an
    ON_DELETE_ACTION of "CASCADE" gives [deleteActionCascadeDelete],
    "NO ACTION" gives [deleteActionNoAction], and NULL or any other text
    gives [deleteActionUndefined]. *)
Theorem deleteAction_decoding (nm p a refs : value) d :
  decodeTableRow [nm; p; a; refs] = inr d ->
  (a = VString "CASCADE" -> parentOnDeleteAction (toTableSchema d) = deleteActionCascadeDelete) /\
  (a = VString "NO ACTION" -> parentOnDeleteAction (toTableSchema d) = deleteActionNoAction) /\
  (a = VNull \/ (exists s, a = VString s /\ s <> "CASCADE" /\ s <> "NO ACTION") ->
   parentOnDeleteAction (toTableSchema d) = deleteActionUndefined).
Proof.
  unfold decodeTableRow.
  destruct (decodeString nm) as [n |]; [| discriminate]; cbn [column].
  destruct (decodeNullString p) as [pn |]; [| discriminate]; cbn [column].
  destruct (decodeNullString a) as [an |] eqn:Ha; [| discriminate]; cbn [column].
  destruct (decodeStringArray refs) as [rs |]; [| discriminate]; cbn [column].
  intros Hd. injection Hd as <-. cbn [toTableSchema parentOnDeleteAction].
  split; [| split].
  - intros ->. injection Ha as <-. reflexivity.
  - intros ->. injection Ha as <-. reflexivity.
  - intros [-> | (s & -> & Hc & Hn)]; injection Ha as <-; [reflexivity |].
    unfold deleteActionOf; cbn [Valid StringVal].
    rewrite (proj2 (String.eqb_neq s "CASCADE") Hc).
    rewrite (proj2 (String.eqb_neq s "NO ACTION") Hn). reflexivity.
Qed.

Lemma deleteAction_decoding_witness :
  decodeTableRow [VString "T"; VNull; VString "RESTRICT"; VNull] =
    inr ("T", nullStringOf None, nullStringOf (Some "RESTRICT"), []) /\
  parentOnDeleteAction (toTableSchema ("T", nullStringOf None, nullStringOf (Some "RESTRICT"), []))
    = deleteActionUndefined.
Proof.
  split; [reflexivity |].
  apply (deleteAction_decoding (VString "T") VNull (VString "RESTRICT") VNull); [reflexivity |].
  right. exists "RESTRICT". split; [reflexivity |]. split; discriminate.
Defined.

(** A row whose parent column is NULL gets the empty parent name; its
    delete action is read from the ON_DELETE_ACTION column alone, and is
    undefined when that column is NULL too. *)
Lemma orphan_descriptor (nm a refs : value) d :
  decodeTableRow [nm; VNull; a; refs] = inr d ->
  parentTableName (toTableSchema d) = "" /\
  parentOnDeleteAction (toTableSchema d) = deleteActionOf (nullStringOf (decodeString a)) /\
  (a = VNull -> parentOnDeleteAction (toTableSchema d) = deleteActionUndefined).
Proof.
  unfold decodeTableRow.
  destruct (decodeString nm) as [n |]; [| discriminate]; cbn [column decodeNullString].
  destruct (decodeNullString a) as [an |] eqn:Ha; [| discriminate]; cbn [column].
  destruct (decodeStringArray refs) as [rs |]; [| discriminate]; cbn [column].
  intros Hd. injection Hd as <-. cbn [toTableSchema parentOnDeleteAction parentTableName].
  split; [reflexivity | split].
  - destruct a; try discriminate; injection Ha as <-; reflexivity.
  - intros ->. injection Ha as <-. reflexivity.
Qed.

(** The fact of Spanner's INFORMATION_SCHEMA.TABLES that the query of
    [fetchTableSchemas] relies on: ON_DELETE_ACTION (column 2 of a row) is
    NULL for a table whose PARENT_TABLE_NAME (column 1) is NULL, that is a
    table that is not interleaved. *)
Definition catalogActionInvariant (r : Row) : Prop :=
  nth 1 r VNull = VNull -> nth 2 r VNull = VNull.

(** C4: tables without a parent. When the catalog rows satisfy
    [catalogActionInvariant], every descriptor returned by
    [fetchTableSchemas] comes from a row of the query result, and when that
    row's parent column is NULL the descriptor has the empty (absent)
    parent name and the delete action [deleteActionUndefined]. *)
Theorem orphan_descriptor_undefined (it : RowIterator) (include exclude : list string)
    (t : tableSchema) :
  (forall r, In r (iterRows it) -> catalogActionInvariant r) ->
  In t (fst (fetchTableSchemas it include exclude)) ->
  exists r d, In r (iterRows it) /\ decodeTableRow r = inr d /\ t = toTableSchema d /\
    (nth 1 r VNull = VNull ->
     parentTableName t = "" /\ parentOnDeleteAction t = deleteActionUndefined).
Proof.
  intros Hinv Ht. rewrite fetchTableSchemas_spec in Ht.
  destruct (firstTableError it); cbn [fst] in Ht; [done |].
  apply in_map_iff in Ht as (d & <- & Hd). apply filter_In in Hd as [Hd _].
  destruct (decodedTableRows_origin it d Hd) as (r & Hr & Hdec).
  exists r, d. split; [done | split; [done | split; [done |]]].
  intros Hp. pose proof (Hinv r Hr Hp) as Ha.
  destruct r as [| c0 [| c1 [| c2 [| c3 [| c4 r]]]]]; try discriminate.
  cbn [nth] in Hp, Ha. subst c1 c2.
  destruct (orphan_descriptor c0 VNull c3 d Hdec) as (Hpn & _ & Hact).
  split; [exact Hpn | exact (Hact eq_refl)].
Qed.

Lemma orphan_descriptor_undefined_witness :
  (forall r, In r (iterRows schemaABC) -> catalogActionInvariant r) /\
  In (descriptorOf rowA) (fst (fetchTableSchemas schemaABC [] [])) /\
  exists r d, In r (iterRows schemaABC) /\ decodeTableRow r = inr d /\
    descriptorOf rowA = toTableSchema d /\
    (nth 1 r VNull = VNull ->
     parentTableName (descriptorOf rowA) = "" /\
     parentOnDeleteAction (descriptorOf rowA) = deleteActionUndefined).
Proof.
  assert (Hinv : forall r, In r (iterRows schemaABC) -> catalogActionInvariant r).
  { intros r Hr. cbn in Hr. unfold catalogActionInvariant.
    destruct Hr as [<- | [<- | [<- | []]]]; cbn; [done | discriminate | done]. }
  assert (Hin : In (descriptorOf rowA) (fst (fetchTableSchemas schemaABC [] []))).
  { left. reflexivity. }
  split; [exact Hinv | split; [exact Hin |]].
  exact (orphan_descriptor_undefined schemaABC [] [] (descriptorOf rowA) Hinv Hin).
Defined.

(** C5: sorted output. When the catalog returns well-formed rows in
    ascending name order, the collection returned (whatever the lists and
    however the query result ends) is in ascending name order; with both
    lists empty it holds every table, in the catalog's order. *)
Theorem fetchTableSchemas_sorted (trs : list tableRow) (fin : option error)
    (include exclude : list string) :
  StronglySorted nameLe (map trName trs) ->
  StronglySorted nameLe
    (map tableName (fst (fetchTableSchemas (rowsThen (map encodeTableRow trs) (iterEnd fin))
                           include exclude))) /\
  fetchTableSchemas (rowsThen (map encodeTableRow trs) IterDone) [] [] =
    (map descriptorOf trs, None).
Proof.
  intros Hs. split.
  - rewrite fetchTableSchemas_encoded. destruct fin as [e |]; cbn [fst map].
    + constructor.
    + rewrite map_map. apply StronglySorted_map_filter. exact Hs.
  - rewrite (fetchTableSchemas_encoded trs None). cbn [selectedBySpec].
    by rewrite List.filter_true.
Qed.

Lemma fetchTableSchemas_sorted_witness :
  StronglySorted nameLe (map trName [rowA; rowB; rowC]) /\
  StronglySorted nameLe
    (map tableName (fst (fetchTableSchemas schemaABC ["C"; "A"] []))) /\
  fetchTableSchemas schemaABC [] [] = (map descriptorOf [rowA; rowB; rowC], None).
Proof.
  assert (Hs : StronglySorted nameLe (map trName [rowA; rowB; rowC])).
  { repeat constructor. }
  split; [exact Hs |].
  exact (fetchTableSchemas_sorted [rowA; rowB; rowC] None ["C"; "A"] [] Hs).
Defined.

(** The descriptor that [fetchIndexSchemas] should build for a
    well-formed index row: a NULL parent marks a global index. *)
Definition indexDescriptorOf (ir : indexRow) : indexSchema :=
  {| indexName := irName ir;
     baseTableName := irBase ir;
     indexParentTableName := match irParent ir with Some p => p | None => "" end |}.

(** C6: index discovery keeps every row. Over well-formed index rows,
    the result has one descriptor per row, in row order, carrying the
    row's index name, base table and parent table (empty when global);
    [fetchIndexSchemas] takes no selection lists. *)
Theorem fetchIndexSchemas_complete (irs : list indexRow) :
  fetchIndexSchemas (rowsThen (map encodeIndexRow irs) IterDone) =
    (map indexDescriptorOf irs, None) /\
  length (fst (fetchIndexSchemas (rowsThen (map encodeIndexRow irs) IterDone))) = length irs.
Proof.
  assert (H : fetchIndexSchemas (rowsThen (map encodeIndexRow irs) IterDone) =
              (map indexDescriptorOf irs, None)).
  { rewrite fetchIndexSchemas_eq, firstIndexError_encoded.
    pose proof (decodedIndexRows_encoded irs None) as Hd. cbn [iterEnd] in Hd.
    rewrite Hd. cbn [firstIndexError].
    rewrite map_map. f_equal. apply map_ext. intros [n b [p |]]; reflexivity. }
  split; [exact H |]. rewrite H. cbn [fst]. apply length_map.
Qed.

(** C7: every descriptor returned names a table of the query result: it
    comes from a row of the result that decodes to that name. *)
Theorem fetchTableSchemas_names_subset (it : RowIterator) (include exclude : list string)
    (t : tableSchema) :
  In t (fst (fetchTableSchemas it include exclude)) ->
  exists r d, In r (iterRows it) /\ decodeTableRow r = inr d /\ decodedName d = tableName t.
Proof.
  rewrite fetchTableSchemas_spec. destruct (firstTableError it); cbn [fst]; [done |].
  intros Ht. apply in_map_iff in Ht as (d & <- & Hd). apply filter_In in Hd as [Hd _].
  destruct (decodedTableRows_origin it d Hd) as (r & Hr & Hdec).
  exists r, d. split; [done | split; [done |]].
  destruct d as [[[n p] a] refs]. reflexivity.
Qed.

Lemma fetchTableSchemas_names_subset_witness :
  In (descriptorOf rowA) (fst (fetchTableSchemas schemaABC [] ["B"])) /\
  exists r d, In r (iterRows schemaABC) /\ decodeTableRow r = inr d /\
              decodedName d = tableName (descriptorOf rowA).
Proof.
  assert (H : In (descriptorOf rowA) (fst (fetchTableSchemas schemaABC [] ["B"]))).
  { left. reflexivity. }
  split; [exact H |].
  exact (fetchTableSchemas_names_subset schemaABC [] ["B"] (descriptorOf rowA) H).
Defined.

(** C8: cancellation. When the query result ends in a cancellation error,
    neither function returns a success: both return an error and the nil
    slice; when the rows read before the cancellation are well-formed, the
    error returned is the cancellation. *)
Theorem fetch_canceled (rows : list Row) (trs : list tableRow) (irs : list indexRow)
    (include exclude : list string) :
  (exists e, fetchTableSchemas (rowsThen rows (IterErr ErrCanceled)) include exclude = ([], Some e)) /\
  (exists e, fetchIndexSchemas (rowsThen rows (IterErr ErrCanceled)) = ([], Some e)) /\
  fetchTableSchemas (rowsThen (map encodeTableRow trs) (IterErr ErrCanceled)) include exclude =
    ([], Some ErrCanceled) /\
  fetchIndexSchemas (rowsThen (map encodeIndexRow irs) (IterErr ErrCanceled)) =
    ([], Some ErrCanceled).
Proof.
  split; [| split; [| split]].
  - rewrite fetchTableSchemas_spec.
    pose proof (firstTableError_canceled_prefix rows ErrCanceled) as H.
    destruct (firstTableError _) as [e |]; [by exists e | done].
  - rewrite fetchIndexSchemas_eq.
    pose proof (firstIndexError_canceled_prefix rows ErrCanceled) as H.
    destruct (firstIndexError _) as [e |]; [by exists e | done].
  - exact (fetchTableSchemas_encoded trs (Some ErrCanceled) include exclude).
  - rewrite fetchIndexSchemas_eq, firstIndexError_encoded. reflexivity.
Qed.

(** C9: a NULL parent is stored as the empty string. For a row that
    decodes, the parent name of the descriptor is empty iff the parent
    column is NULL or the empty string, in both functions; a NULL parent
    and a parent named "" give the same descriptor. *)
Theorem parent_empty_string :
  (forall (nm p a refs : value) d,
     decodeTableRow [nm; p; a; refs] = inr d ->
     (parentTableName (toTableSchema d) = "" <-> p = VNull \/ p = VString "")) /\
  (forall (nm b p : value) d,
     decodeIndexRow [nm; b; p] = inr d ->
     (indexParentTableName (toIndexSchema d) = "" <-> p = VNull \/ p = VString "")) /\
  (forall (nm a refs : value) d1 d2,
     decodeTableRow [nm; VNull; a; refs] = inr d1 ->
     decodeTableRow [nm; VString ""; a; refs] = inr d2 ->
     toTableSchema d1 = toTableSchema d2) /\
  (forall (nm b : value) d1 d2,
     decodeIndexRow [nm; b; VNull] = inr d1 ->
     decodeIndexRow [nm; b; VString ""] = inr d2 ->
     toIndexSchema d1 = toIndexSchema d2).
Proof.
  split; [| split; [| split]].
  - intros nm p a refs d. unfold decodeTableRow.
    destruct (decodeString nm) as [n |]; [| discriminate]; cbn [column].
    destruct p as [| s | z | vs]; cbn [decodeNullString column]; try discriminate;
    (destruct (decodeNullString a) as [an |]; [| discriminate]; cbn [column]);
    (destruct (decodeStringArray refs) as [rs |]; [| discriminate]; cbn [column]);
    intros Hd; injection Hd as <-; cbn [toTableSchema parentTableName parentNameOf Valid StringVal].
    + split; [intros _; by left | done].
    + split; [intros ->; by right |]. intros [H | H]; [discriminate | by injection H].
  - intros nm b p d. unfold decodeIndexRow.
    destruct (decodeString nm) as [n |]; [| discriminate]; cbn [column].
    destruct (decodeString b) as [bn |]; [| discriminate]; cbn [column].
    destruct p as [| s | z | vs]; cbn [decodeNullString column]; try discriminate;
    intros Hd; injection Hd as <-; cbn [toIndexSchema indexParentTableName parentNameOf Valid StringVal].
    + split; [intros _; by left | done].
    + split; [intros ->; by right |]. intros [H | H]; [discriminate | by injection H].
  - intros nm a refs d1 d2. unfold decodeTableRow.
    destruct (decodeString nm) as [n |]; [| discriminate]; cbn [column decodeNullString].
    destruct (decodeNullString a) as [an |]; [| discriminate]; cbn [column].
    destruct (decodeStringArray refs) as [rs |]; [| discriminate]; cbn [column].
    intros H1 H2. injection H1 as <-. injection H2 as <-. reflexivity.
  - intros nm b d1 d2. unfold decodeIndexRow.
    destruct (decodeString nm) as [n |]; [| discriminate]; cbn [column].
    destruct (decodeString b) as [bn |]; [| discriminate]; cbn [column decodeNullString].
    intros H1 H2. injection H1 as <-. injection H2 as <-. reflexivity.
Qed.

Lemma parent_empty_string_witness :
  decodeTableRow [VString "T"; VNull; VNull; VNull] =
    inr ("T", nullStringOf None, nullStringOf None, []) /\
  parentTableName (toTableSchema ("T", nullStringOf None, nullStringOf None, [])) = "" /\
  toTableSchema ("T", nullStringOf None, nullStringOf None, []) =
    toTableSchema ("T", nullStringOf (Some ""), nullStringOf None, []).
Proof.
  destruct parent_empty_string as (Ht & _ & Heq & _).
  split; [reflexivity | split].
  - apply (proj2 (Ht (VString "T") VNull VNull VNull _ eq_refl)). left. reflexivity.
  - exact (Heq (VString "T") VNull VNull _ _ eq_refl eq_refl).
Defined.

(** C10: decoding comes before selection. A row that does not decode makes
    [fetchTableSchemas] fail with its decode error, whatever the lists,
    including when its table would not have been selected. *)
Theorem decode_before_selection (trs : list tableRow) (r : Row) (rest : RowIterator)
    (include exclude : list string) (e : error) :
  decodeTableRow r = inl e ->
  fetchTableSchemas (rowsThen (map encodeTableRow trs) (IterRow r rest)) include exclude =
    ([], Some e).
Proof.
  intros Hr. rewrite fetchTableSchemas_spec, firstTableError_encoded.
  cbn [firstTableError]. by rewrite Hr.
Qed.

Lemma decode_before_selection_witness :
  decodeTableRow [VString "C"; VNull; VNull; VInt64 1] = inl (ErrDecodeColumn 3) /\
  fetchTableSchemas
    (rowsThen (map encodeTableRow [rowA; rowB]) (IterRow [VString "C"; VNull; VNull; VInt64 1] IterDone))
    [] ["C"] = ([], Some (ErrDecodeColumn 3)).
Proof.
  split; [reflexivity |].
  apply (decode_before_selection [rowA; rowB] [VString "C"; VNull; VNull; VInt64 1] IterDone [] ["C"]).
  reflexivity.
Defined.

(** ** Further properties of the two functions *)

(** Whether a query result ends with [iterator.Done]. *)
Fixpoint endsDone (it : RowIterator) : bool :=
  match it with
  | IterDone => true
  | IterErr _ => false
  | IterRow _ rest => endsDone rest
  end.

Definition tableRowDecodes (r : Row) : bool :=
  match decodeTableRow r with inr _ => true | inl _ => false end.

Definition indexRowDecodes (r : Row) : bool :=
  match decodeIndexRow r with inr _ => true | inl _ => false end.

Lemma firstTableError_None it :
  firstTableError it = None <->
  List.Forall (fun r => tableRowDecodes r = true) (iterRows it) /\ endsDone it = true.
Proof.
  induction it as [| e | r rest IH]; cbn [firstTableError iterRows endsDone].
  - split; [by split | done].
  - split; [discriminate | intros [_ H]; discriminate].
  - destruct (decodeTableRow r) as [e | d] eqn:Hd.
    + split; [discriminate |]. intros [H _]. inversion H as [| ? ? Hr].
      unfold tableRowDecodes in Hr. rewrite Hd in Hr. discriminate Hr.
    + rewrite IH. split.
      * intros [H1 H2]. split; [| done].
        constructor; [unfold tableRowDecodes; by rewrite Hd | done].
      * intros [H1 H2]. inversion H1; subst. by split.
Qed.

Lemma firstIndexError_None it :
  firstIndexError it = None <->
  List.Forall (fun r => indexRowDecodes r = true) (iterRows it) /\ endsDone it = true.
Proof.
  induction it as [| e | r rest IH]; cbn [firstIndexError iterRows endsDone].
  - split; [by split | done].
  - split; [discriminate | intros [_ H]; discriminate].
  - destruct (decodeIndexRow r) as [e | d] eqn:Hd.
    + split; [discriminate |]. intros [H _]. inversion H as [| ? ? Hr].
      unfold indexRowDecodes in Hr. rewrite Hd in Hr. discriminate Hr.
    + rewrite IH. split.
      * intros [H1 H2]. split; [| done].
        constructor; [unfold indexRowDecodes; by rewrite Hd | done].
      * intros [H1 H2]. inversion H1; subst. by split.
Qed.

Lemma decodedIndexRows_length it :
  firstIndexError it = None -> length (decodedIndexRows it) = length (iterRows it).
Proof.
  induction it as [| e | r rest IH]; cbn [firstIndexError decodedIndexRows iterRows];
    [done | discriminate |].
  destruct (decodeIndexRow r); [discriminate |]. intros H. cbn [length]. by rewrite IH.
Qed.

Lemma filter_sublist {A} (f : A -> bool) (l : list A) : List.filter f l `sublist_of` l.
Proof.
  induction l as [| x l IH]; simpl; [constructor |].
  destruct (f x); [by apply sublist_skip | by apply sublist_cons].
Qed.

Lemma map_sublist {A B} (g : A -> B) (l1 l2 : list A) :
  l1 `sublist_of` l2 -> map g l1 `sublist_of` map g l2.
Proof.
  induction 1; simpl; [constructor | by apply sublist_skip | by apply sublist_cons].
Qed.

Lemma filter_mono {A} (f g : A -> bool) (l : list A) :
  (forall x, f x = true -> g x = true) -> List.filter f l `sublist_of` List.filter g l.
Proof.
  intros Hfg. induction l as [| x l IH]; simpl; [constructor |].
  destruct (f x) eqn:Hf.
  - rewrite (Hfg x Hf). by apply sublist_skip.
  - destruct (g x); [by apply sublist_cons | done].
Qed.

Lemma filter_complement_perm {A} (f : A -> bool) (l : list A) :
  List.filter f l ++ List.filter (fun x => negb (f x)) l ≡ₚ l.
Proof.
  induction l as [| x l IH]; simpl; [done |].
  destruct (f x); simpl.
  - by apply perm_skip.
  - rewrite <- Permutation_middle. by apply perm_skip.
Qed.

Lemma list_nil_iff_same_elems (l1 l2 : list string) :
  (forall x, x ∈ l1 <-> x ∈ l2) -> (l1 = [] <-> l2 = []).
Proof.
  intros H. destruct l1 as [| a l1], l2 as [| b l2]; split; intros Hn; try done.
  - exfalso. apply (not_elem_of_nil b). apply H. set_solver.
  - exfalso. apply (not_elem_of_nil a). apply H. set_solver.
Qed.

Lemma selectedBySpec_alt include exclude name :
  selectedBySpec include exclude name =
  if bool_decide (exclude = []) then
    (if bool_decide (include = []) then true else bool_decide (name ∈ include))
  else negb (bool_decide (name ∈ exclude)).
Proof. by destruct include, exclude. Qed.

Lemma tableName_toTableSchema d : tableName (toTableSchema d) = decodedName d.
Proof. by destruct d as [[[n p] a] refs]. Qed.

Lemma mapM_decodeString_inv (vs : list value) (l : list string) :
  mapM decodeString vs = Some l -> vs = map VString l.
Proof.
  revert l. induction vs as [| v vs IH]; intros l; simpl.
  - by intros [= <-].
  - destruct v; try discriminate. cbn [decodeString].
    destruct (mapM decodeString vs) as [l' |] eqn:Hm; [| discriminate].
    intros [= <-]. by rewrite (IH l' eq_refl).
Qed.

(** [fetchTableSchemas] succeeds exactly when every row of the query result
    decodes and the result ends with [iterator.Done]; the selection lists
    play no part in it. *)
Theorem fetchTableSchemas_success_iff (it : RowIterator) (include exclude : list string) :
  snd (fetchTableSchemas it include exclude) = None <->
  List.Forall (fun r => tableRowDecodes r = true) (iterRows it) /\ endsDone it = true.
Proof.
  rewrite fetchTableSchemas_spec, <- firstTableError_None.
  destruct (firstTableError it); cbn [snd]; split; congruence.
Qed.

(** [fetchIndexSchemas] succeeds exactly when every row decodes and the
    result ends with [iterator.Done]; then it returns one descriptor per row. *)
Theorem fetchIndexSchemas_success_iff (it : RowIterator) :
  (snd (fetchIndexSchemas it) = None <->
   List.Forall (fun r => indexRowDecodes r = true) (iterRows it) /\ endsDone it = true) /\
  (snd (fetchIndexSchemas it) = None -> length (fst (fetchIndexSchemas it)) = length (iterRows it)).
Proof.
  rewrite fetchIndexSchemas_eq, <- firstIndexError_None.
  destruct (firstIndexError it) eqn:He; cbn [snd fst]; split; try split; try congruence.
  intros _. rewrite length_map. by apply decodedIndexRows_length.
Qed.

Lemma fetchIndexSchemas_success_iff_witness :
  snd (fetchIndexSchemas (IterRow [VString "I"; VString "T"; VNull] IterDone)) = None /\
  length (fst (fetchIndexSchemas (IterRow [VString "I"; VString "T"; VNull] IterDone))) = 1.
Proof.
  destruct (fetchIndexSchemas_success_iff (IterRow [VString "I"; VString "T"; VNull] IterDone))
    as [_ Hlen].
  split; [reflexivity |]. apply Hlen. reflexivity.
Defined.

(** The tables returned keep the order of the query result: they form a
    subsequence of the descriptors of the rows read. *)
Theorem fetchTableSchemas_subsequence (it : RowIterator) (include exclude : list string) :
  fst (fetchTableSchemas it include exclude) `sublist_of`
  map toTableSchema (decodedTableRows it).
Proof.
  rewrite fetchTableSchemas_spec. destruct (firstTableError it); cbn [fst].
  - apply sublist_nil_l.
  - apply map_sublist, filter_sublist.
Qed.

(** Only the sets of names in the two lists matter: lists with the same
    elements, in any order and with any repetitions, select the same tables. *)
Theorem fetchTableSchemas_list_sets (it : RowIterator) (inc1 inc2 exc1 exc2 : list string) :
  (forall x, x ∈ inc1 <-> x ∈ inc2) -> (forall x, x ∈ exc1 <-> x ∈ exc2) ->
  fetchTableSchemas it inc1 exc1 = fetchTableSchemas it inc2 exc2.
Proof.
  intros Hi He. rewrite !fetchTableSchemas_spec. destruct (firstTableError it); [done |].
  do 2 f_equal. apply List.filter_ext. intros d. rewrite !selectedBySpec_alt.
  pose proof (list_nil_iff_same_elems _ _ Hi) as Hin.
  pose proof (list_nil_iff_same_elems _ _ He) as Hen.
  assert (Hd1 : bool_decide (exc1 = []) = bool_decide (exc2 = [])) by (apply bool_decide_ext; done).
  assert (Hd2 : bool_decide (inc1 = []) = bool_decide (inc2 = [])) by (apply bool_decide_ext; done).
  rewrite Hd1, Hd2.
  rewrite (bool_decide_ext (decodedName d ∈ inc1) (decodedName d ∈ inc2)) by apply Hi.
  rewrite (bool_decide_ext (decodedName d ∈ exc1) (decodedName d ∈ exc2)) by apply He.
  done.
Qed.

Lemma fetchTableSchemas_list_sets_witness :
  fetchTableSchemas schemaABC ["A"; "B"; "A"] [] = fetchTableSchemas schemaABC ["B"; "A"] [].
Proof.
  apply fetchTableSchemas_list_sets; intros x; set_solver.
Defined.

(** Feeding the names of a non-empty result back as the include list
    (with no exclude list) returns the same result. An empty result cannot
    be fed back this way: two empty lists select every table. *)
Theorem fetchTableSchemas_reselect (it : RowIterator) (include exclude : list string)
    (ts : list tableSchema) :
  fetchTableSchemas it include exclude = (ts, None) -> ts <> [] ->
  fetchTableSchemas it (map tableName ts) [] = (ts, None).
Proof.
  rewrite !fetchTableSchemas_spec. destruct (firstTableError it); [discriminate |].
  intros [= <-] Hne. do 2 f_equal. apply List.filter_ext_in. intros d Hd.
  rewrite selectedBySpec_alt, bool_decide_eq_true_2 by done.
  rewrite bool_decide_eq_false_2
    by (intros H; apply Hne; apply map_eq_nil in H; exact H).
  destruct (selectedBySpec include exclude (decodedName d)) eqn:HP.
  - apply bool_decide_eq_true_2. apply list_elem_of_In, in_map_iff.
    exists (toTableSchema d). split; [apply tableName_toTableSchema |].
    apply in_map, filter_In. split; [exact Hd | exact HP].
  - apply bool_decide_eq_false_2. rewrite list_elem_of_In. intros Hin.
    apply in_map_iff in Hin as (t & Ht & Hin). apply in_map_iff in Hin as (d' & <- & Hd').
    apply filter_In in Hd' as [_ HP']. rewrite tableName_toTableSchema in Ht.
    rewrite Ht in HP'. congruence.
Qed.

Lemma fetchTableSchemas_reselect_witness :
  fetchTableSchemas schemaABC [] ["B"] = (map descriptorOf [rowA; rowC], None) /\
  fetchTableSchemas schemaABC (map tableName (map descriptorOf [rowA; rowC])) [] =
    (map descriptorOf [rowA; rowC], None).
Proof.
  assert (H : fetchTableSchemas schemaABC [] ["B"] = (map descriptorOf [rowA; rowC], None))
    by reflexivity.
  split; [exact H |].
  apply (fetchTableSchemas_reselect schemaABC [] ["B"] _ H). discriminate.
Defined.

(** For a non-empty list of names [E], the tables selected by including
    [E] and those selected by excluding [E] together are, up to order, all
    the tables (when the query succeeds). *)
Theorem fetchTableSchemas_include_exclude_partition (it : RowIterator) (E : list string) :
  E <> [] -> snd (fetchTableSchemas it [] []) = None ->
  fst (fetchTableSchemas it E []) ++ fst (fetchTableSchemas it [] E) ≡ₚ
  fst (fetchTableSchemas it [] []).
Proof.
  intros HE. rewrite !fetchTableSchemas_spec.
  destruct (firstTableError it); cbn [fst snd]; [discriminate |]. intros _.
  rewrite <- map_app. apply Permutation_map.
  destruct E as [| e E']; [done |]. cbn [selectedBySpec]. rewrite List.filter_true.
  apply filter_complement_perm.
Qed.

Lemma fetchTableSchemas_include_exclude_partition_witness :
  snd (fetchTableSchemas schemaABC [] []) = None /\
  fst (fetchTableSchemas schemaABC ["B"] []) ++ fst (fetchTableSchemas schemaABC [] ["B"]) ≡ₚ
  fst (fetchTableSchemas schemaABC [] []).
Proof.
  assert (H : snd (fetchTableSchemas schemaABC [] []) = None) by reflexivity.
  split; [exact H |].
  apply (fetchTableSchemas_include_exclude_partition schemaABC ["B"]); [discriminate | exact H].
Defined.

(** Excluding more names (from a non-empty exclude list) keeps a
    subsequence of the tables kept before. *)
Theorem fetchTableSchemas_exclude_mono (it : RowIterator) (include exc1 exc2 : list string) :
  exc1 <> [] -> (forall x, x ∈ exc1 -> x ∈ exc2) ->
  fst (fetchTableSchemas it include exc2) `sublist_of` fst (fetchTableSchemas it include exc1).
Proof.
  intros Hne Hsub. rewrite !fetchTableSchemas_spec.
  destruct (firstTableError it); cbn [fst]; [constructor |].
  apply map_sublist, filter_mono. intros d. rewrite !selectedBySpec_alt.
  rewrite (bool_decide_eq_false_2 (exc1 = [])) by done.
  rewrite (bool_decide_eq_false_2 (exc2 = [])).
  2: { intros ->. destruct exc1 as [| a l]; [done |].
       apply (not_elem_of_nil a), Hsub. set_solver. }
  intros H. apply negb_true_iff in H. apply negb_true_iff.
  apply bool_decide_eq_false in H. apply bool_decide_eq_false_2. auto.
Qed.

Lemma fetchTableSchemas_exclude_mono_witness :
  fst (fetchTableSchemas schemaABC [] ["A"; "C"]) `sublist_of`
  fst (fetchTableSchemas schemaABC [] ["A"]).
Proof.
  apply fetchTableSchemas_exclude_mono; [discriminate | intros x; set_solver].
Defined.

(** With no exclude list, including more names (starting from a non-empty
    include list) keeps a supersequence of the tables kept before. *)
Theorem fetchTableSchemas_include_mono (it : RowIterator) (inc1 inc2 : list string) :
  inc1 <> [] -> (forall x, x ∈ inc1 -> x ∈ inc2) ->
  fst (fetchTableSchemas it inc1 []) `sublist_of` fst (fetchTableSchemas it inc2 []).
Proof.
  intros Hne Hsub. rewrite !fetchTableSchemas_spec.
  destruct (firstTableError it); cbn [fst]; [constructor |].
  apply map_sublist, filter_mono. intros d. rewrite !selectedBySpec_alt.
  rewrite !(bool_decide_eq_true_2 ([] = [])) by done.
  rewrite (bool_decide_eq_false_2 (inc1 = [])) by done.
  rewrite (bool_decide_eq_false_2 (inc2 = [])).
  2: { intros ->. destruct inc1 as [| a l]; [done |].
       apply (not_elem_of_nil a), Hsub. set_solver. }
  intros H. apply bool_decide_eq_true in H. apply bool_decide_eq_true_2. auto.
Qed.

Lemma fetchTableSchemas_include_mono_witness :
  fst (fetchTableSchemas schemaABC ["A"] []) `sublist_of`
  fst (fetchTableSchemas schemaABC ["A"; "C"] []).
Proof.
  apply fetchTableSchemas_include_mono; [discriminate | intros x; set_solver].
Defined.

Definition optionOfNullString (ns : NullString) : option string :=
  if Valid ns then Some (StringVal ns) else None.

Lemma decodeNullString_inv v ns :
  decodeNullString v = Some ns ->
  v = nullableValue (optionOfNullString ns) /\ ns = nullStringOf (optionOfNullString ns).
Proof. destruct v; cbn [decodeNullString]; try discriminate; intros [= <-]; done. Qed.

Lemma decodeString_inv v s : decodeString v = Some s -> v = VString s.
Proof. destruct v; cbn [decodeString]; try discriminate; by intros [= <-]. Qed.

(** Round trip of a table row: a well-formed row decodes to its fields, and
    every row that decodes is a well-formed row, written either with its
    array of referencing tables or, when that array is empty, with NULL. *)
Theorem tableRow_roundtrip :
  (forall tr, decodeTableRow (encodeTableRow tr) = inr (decodedOf tr)) /\
  (forall r d, decodeTableRow r = inr d ->
   exists tr, d = decodedOf tr /\
     (r = encodeTableRow tr \/
      (trRefs tr = [] /\
       r = [VString (trName tr); nullableValue (trParent tr); nullableValue (trAction tr); VNull]))).
Proof.
  split; [exact decodeTableRow_encode |].
  intros r d. destruct r as [| c0 [| c1 [| c2 [| c3 [| c4 r]]]]]; try discriminate.
  cbn [decodeTableRow].
  destruct (decodeString c0) as [n |] eqn:H0; [| discriminate]; cbn [column].
  destruct (decodeNullString c1) as [p |] eqn:H1; [| discriminate]; cbn [column].
  destruct (decodeNullString c2) as [a |] eqn:H2; [| discriminate]; cbn [column].
  destruct (decodeStringArray c3) as [rs |] eqn:H3; [| discriminate]; cbn [column].
  intros [= <-].
  apply decodeString_inv in H0 as ->.
  apply decodeNullString_inv in H1 as [-> Hp]. apply decodeNullString_inv in H2 as [-> Ha].
  exists {| trName := n; trParent := optionOfNullString p;
            trAction := optionOfNullString a; trRefs := rs |}.
  split; [unfold decodedOf; cbn [trName trParent trAction trRefs]; by rewrite <- Hp, <- Ha |].
  destruct c3 as [| | | vs]; cbn [decodeStringArray] in H3; try discriminate.
  - injection H3 as <-. right. done.
  - left. apply mapM_decodeString_inv in H3 as ->. reflexivity.
Qed.

Lemma tableRow_roundtrip_witness :
  decodeTableRow [VString "T"; VString "P"; VString "CASCADE"; VNull] =
    inr ("T", nullStringOf (Some "P"), nullStringOf (Some "CASCADE"), []) /\
  exists tr, ("T", nullStringOf (Some "P"), nullStringOf (Some "CASCADE"), []) = decodedOf tr /\
    ([VString "T"; VString "P"; VString "CASCADE"; VNull] = encodeTableRow tr \/
     (trRefs tr = [] /\
      [VString "T"; VString "P"; VString "CASCADE"; VNull] =
        [VString (trName tr); nullableValue (trParent tr); nullableValue (trAction tr); VNull])).
Proof.
  assert (H : decodeTableRow [VString "T"; VString "P"; VString "CASCADE"; VNull] =
                inr ("T", nullStringOf (Some "P"), nullStringOf (Some "CASCADE"), []))
    by reflexivity.
  split; [exact H |]. exact (proj2 tableRow_roundtrip _ _ H).
Defined.

(** Round trip of an index row: a well-formed row decodes to its fields,
    and every row that decodes is a well-formed row. *)
Theorem indexRow_roundtrip :
  (forall ir, decodeIndexRow (encodeIndexRow ir) = inr (irName ir, irBase ir, nullStringOf (irParent ir))) /\
  (forall r d, decodeIndexRow r = inr d ->
   exists ir, r = encodeIndexRow ir /\ d = (irName ir, irBase ir, nullStringOf (irParent ir))).
Proof.
  split; [exact decodeIndexRow_encode |].
  intros r d. destruct r as [| c0 [| c1 [| c2 [| c3 r]]]]; try discriminate.
  cbn [decodeIndexRow].
  destruct (decodeString c0) as [n |] eqn:H0; [| discriminate]; cbn [column].
  destruct (decodeString c1) as [b |] eqn:H1; [| discriminate]; cbn [column].
  destruct (decodeNullString c2) as [p |] eqn:H2; [| discriminate]; cbn [column].
  intros [= <-].
  apply decodeString_inv in H0 as ->. apply decodeString_inv in H1 as ->.
  apply decodeNullString_inv in H2 as [-> Hp].
  exists {| irName := n; irBase := b; irParent := optionOfNullString p |}.
  split; [reflexivity |]. cbn [irName irBase irParent]. by rewrite <- Hp.
Qed.

Lemma indexRow_roundtrip_witness :
  decodeIndexRow [VString "I"; VString "T"; VString "P"] =
    inr ("I", "T", nullStringOf (Some "P")) /\
  exists ir, [VString "I"; VString "T"; VString "P"] = encodeIndexRow ir /\
    ("I", "T", nullStringOf (Some "P")) = (irName ir, irBase ir, nullStringOf (irParent ir)).
Proof.
  assert (H : decodeIndexRow [VString "I"; VString "T"; VString "P"] =
                inr ("I", "T", nullStringOf (Some "P"))) by reflexivity.
  split; [exact H |]. exact (proj2 indexRow_roundtrip _ _ H).
Defined.

(** A row with the wrong number of columns (four for tables, three for
    indexes) makes the call fail with the column-count error of
    [Row.Columns], after well-formed rows. *)
Theorem fetch_column_count_error (trs : list tableRow) (irs : list indexRow) (r : Row)
    (rest : RowIterator) (include exclude : list string) :
  (length r <> 4 ->
   fetchTableSchemas (rowsThen (map encodeTableRow trs) (IterRow r rest)) include exclude =
     ([], Some (ErrColNumMismatch 4 (length r)))) /\
  (length r <> 3 ->
   fetchIndexSchemas (rowsThen (map encodeIndexRow irs) (IterRow r rest)) =
     ([], Some (ErrColNumMismatch 3 (length r)))).
Proof.
  split; intros Hlen.
  - rewrite fetchTableSchemas_spec, firstTableError_encoded. cbn [firstTableError].
    by destruct r as [| c0 [| c1 [| c2 [| c3 [| c4 r]]]]].
  - rewrite fetchIndexSchemas_eq, firstIndexError_encoded. cbn [firstIndexError].
    by destruct r as [| c0 [| c1 [| c2 [| c3 r]]]].
Qed.

Lemma fetch_column_count_error_witness :
  fetchTableSchemas (rowsThen (map encodeTableRow [rowA]) (IterRow [VString "B"] IterDone)) [] [] =
    ([], Some (ErrColNumMismatch 4 1)) /\
  fetchIndexSchemas (IterRow [VString "I"; VString "T"] IterDone) =
    ([], Some (ErrColNumMismatch 3 2)).
Proof.
  split.
  - apply (fetch_column_count_error [rowA] [] [VString "B"] IterDone [] []). discriminate.
  - apply (fetch_column_count_error [] [] [VString "I"; VString "T"] IterDone [] []). discriminate.
Defined.
